(** * Knapsack budget allocation and the online success-rate estimator

    A shallow embedding of
      recipe/knapsack_grpo/utils/allocator.py
      recipe/knapsack_grpo/utils/success_estimator.py

    Modelling conventions.
    - A Python [float] (float64) is an exact rational [Q]; the literals
      [1e-8], [1e-9], [-1e30], [-1e29] are their decimal values.  No
      rounding is modelled.
    - A Python [int] and an entry of an [int32] array are a [Z]; every count
      handled below is bounded by [n_up] or by [total_budget], and overflow
      of the 32-bit storage is not modelled.
    - A one-dimensional numpy array is a [list]; a boolean mask is a
      [list bool] of the same length.
    - A raised exception is the [Raise] case of [result].
    - The estimator's dictionary is a [gmap string (Q * Q)]; the per-call
      aggregation dictionary, whose iteration order is its insertion order,
      is an association list. *)

From Stdlib Require Import ZArith QArith Qround Qpower Lia Lqa List Bool Sorted.
From stdpp Require Import gmap strings list.

#[local] Unset Default Proof Using.
Local Open Scope Z_scope.

(** ** Exceptions *)

Inductive exn : Set :=
| AssertionError
| ZeroDivisionError.

Inductive result (A : Type) : Type :=
| Ok (a : A)
| Raise (e : exn).

Arguments Ok {A} a.
Arguments Raise {A} e.

Definition bind {A B : Type} (c : result A) (k : A -> result B) : result B :=
  match c with
  | Ok a => k a
  | Raise e => Raise e
  end.

Notation "'let*' x ':=' c 'in' k" := (bind c (fun x => k))
  (at level 10, x name, c at level 100, k at level 200).

(** ** numpy helpers *)

(** [range(lo, hi)] *)
Definition range (lo hi : Z) : list Z := seqZ lo (hi - lo).

(** [int(a.sum())] *)
Fixpoint zsum (l : list Z) : Z :=
  match l with
  | [] => 0
  | x :: l' => x + zsum l'
  end.

(** [mask.any()] *)
Definition any (mask : list bool) : bool := existsb (fun b => b) mask.

(** [mask.sum()] *)
Definition mask_count (mask : list bool) : nat :=
  length (filter (fun b => b = true) mask).

(** [a[mask]] *)
Fixpoint mask_get {A : Type} (a : list A) (mask : list bool) : list A :=
  match a, mask with
  | x :: a', true :: m' => x :: mask_get a' m'
  | _ :: a', false :: m' => mask_get a' m'
  | _, _ => []
  end.

(** [a[mask] = v] for a scalar [v] *)
Fixpoint mask_fill {A : Type} (a : list A) (mask : list bool) (v : A)
  : list A :=
  match a, mask with
  | x :: a', m :: m' => (if m then v else x) :: mask_fill a' m' v
  | _, _ => a
  end.

(** [a[mask] = vals] for an array [vals] with one entry per selected
    position (numpy raises when the lengths differ; every use below passes
    exactly [mask.sum()] values). *)
Fixpoint mask_set {A : Type} (a : list A) (mask : list bool) (vals : list A)
  : list A :=
  match a, mask with
  | x :: a', true :: m' =>
      match vals with
      | v :: vals' => v :: mask_set a' m' vals'
      | [] => x :: mask_set a' m' []
      end
  | x :: a', false :: m' => x :: mask_set a' m' vals
  | _, _ => a
  end.

(** [np.clip(x, lo, hi)] *)
Definition clip (lo hi x : Z) : Z := Z.min (Z.max x lo) hi.

(** [x > y] on floats *)
Definition Qgt_bool (x y : Q) : bool := negb (Qle_bool x y).

Module Allocator.

(** ** Value model *)

Definition _prob_nonzero_grad (N : Z) (p : Q) : Q :=
  if Qle_bool p 0 || Qle_bool 1 p || (N <=? 0)
  then 0%Q
  else (1 - p ^ N - (1 - p) ^ N)%Q.

Definition _info_gain (p : Q) : Q :=
  if Qle_bool p 0 || Qle_bool 1 p
  then 0%Q
  else (p * (1 - p) * (1 - p))%Q.

(** The entry of the value table for the count [k]. *)
Definition value (p : Q) (k : Z) : Q :=
  (_prob_nonzero_grad k p * _info_gain p)%Q.

Definition _value_table (p : Q) (n_low n_up : Z) : list Q :=
  let ks := range n_low (n_up + 1) in
  map (fun k => value p k) ks.

(** ** Dynamic programme *)

Definition NEG_INF : Q := (-1e30)%Q.
Definition NEG_CUT : Q := (-1e29)%Q.

(** Row 0 of [dp]: [dp[0, 0] = 0.0], every other entry [-1e30]. *)
Definition dp_row0 (B : Z) : list Q :=
  <[0%nat := 0%Q]> (replicate (Z.to_nat (B + 1)) NEG_INF).

(** One pass of the innermost loop, for the excess [k_extra]. *)
Definition dp_try (vi prev : list Q) (b : Z) (st : Q * Z) (k_extra : Z)
  : Q * Z :=
  let '(best, best_k) := st in
  let cand := nth (Z.to_nat (b - k_extra)) prev 0%Q in
  if Qle_bool cand NEG_CUT then (best, best_k)
  else
    let inc := if 0 <? k_extra
               then (nth (Z.to_nat k_extra) vi 0 - nth 0 vi 0)%Q
               else 0%Q in
    let val := (cand + inc)%Q in
    if Qgt_bool val best then (val, k_extra) else (best, best_k).

(** The pair [(dp[i, b], choice[i-1, b])] computed from row [i-1]. *)
Definition dp_cell (vi prev : list Q) (max_extra b : Z) : Q * Z :=
  fold_left (dp_try vi prev b)
            (range 0 (Z.min b max_extra + 1))
            (nth (Z.to_nat b) prev 0%Q, 0).

Definition dp_row (vi prev : list Q) (B max_extra : Z) : list (Q * Z) :=
  map (dp_cell vi prev max_extra) (range 0 (B + 1)).

(** The loop over the items: the state is the last row of [dp] filled so
    far and the rows of [choice] filled so far.  Row [i] of [dp] is read
    only while row [i+1] is filled, and each of its cells is written once. *)
Definition dp_step (B n_low n_up : Z) (st : list Q * list (list Z))
  (vi : list Q) : list Q * list (list Z) :=
  let '(prev, choice) := st in
  let max_extra := Z.min B (n_up - n_low) in
  let row := dp_row vi prev B max_extra in
  (map fst row, choice ++ [map snd row]).

Definition dp_fill (vt : list (list Q)) (B n_low n_up : Z)
  : list Q * list (list Z) :=
  fold_left (dp_step B n_low n_up) vt (dp_row0 B, []).

(** Backtracking, over the rows of [choice] from the last item to the
    first; the result lists the excess of item 1, ..., item M. *)
Fixpoint backtrack (rchoice : list (list Z)) (b : Z) : list Z :=
  match rchoice with
  | [] => []
  | ch :: rest =>
      let k0 := nth (Z.to_nat b) ch (-1) in
      let k_extra := if k0 <? 0 then 0 else k0 in
      backtrack rest (b - k_extra) ++ [k_extra]
  end.

Definition _knapsack_dp (p : list Q) (total_budget n_low n_up : Z)
  : result (list Z) :=
  let M := Z.of_nat (length p) in
  let base := replicate (length p) n_low in
  let B := total_budget - zsum base in
  if B <? 0 then
    if M =? 0 then Raise ZeroDivisionError
    else
      let take := Z.max 0 (total_budget / M) in
      Ok (replicate (length p) take)
  else
    let vt := map (fun pi => _value_table pi n_low n_up) p in
    let '(_, choice) := dp_fill vt B n_low n_up in
    Ok (zip_with Z.add base (backtrack (rev choice) B)).

(** ** Extreme handling and repair *)

Definition eps : Q := 1e-8%Q.

(** The final loop [for i in range(M)], with its [break]. *)
Fixpoint repair (alloc : list Z) (sgn diff n_low n_up : Z) : list Z :=
  match alloc with
  | [] => []
  | a :: rest =>
      if diff =? 0 then alloc
      else
        let can := if 0 <? sgn then n_up - a else a - n_low in
        let take := Z.min can diff in
        (a + sgn * take) :: repair rest sgn (diff - take) n_low n_up
  end.

(** [give[:] = remain // len(give); give[:(remain % len(give))] += 1] *)
Definition even_split (remain : Z) (n : nat) : list Z :=
  let give := replicate n (remain / Z.of_nat n) in
  let r := Z.to_nat (remain mod Z.of_nat n) in
  map (Z.add 1) (take r give) ++ drop r give.

Definition allocate_with_extremes (p : list Q) (total_budget n_low n_up : Z)
  (hard_fallback_share : Q) (easy_min_cover : bool) : result (list Z) :=
  if negb (0 <=? total_budget) then Raise AssertionError else
  if negb ((1 <=? n_low) && (n_low <=? n_up)) then Raise AssertionError else
  let M := length p in
  let alloc := replicate M 0 in
  let idx_hard := map (fun x => Qle_bool x eps) p in
  let idx_easy := map (fun x => Qle_bool (1 - eps) x) p in
  let idx_mid := zip_with (fun h e => negb h && negb e) idx_hard idx_easy in
  let alloc := if easy_min_cover && any idx_easy
               then mask_fill alloc idx_easy n_low else alloc in
  let budget_mid := total_budget - zsum alloc in
  if budget_mid <? 0 then
    let scale := (inject_Z total_budget / inject_Z (Z.max 1 (zsum alloc)))%Q in
    Ok (map (fun a => Qfloor (inject_Z a * scale)) alloc)
  else
    let* alloc :=
      (if any idx_mid then
         let* alloc_mid :=
           _knapsack_dp (mask_get p idx_mid) budget_mid n_low n_up in
         Ok (mask_set alloc idx_mid alloc_mid)
       else Ok alloc) in
    let used := zsum alloc in
    let remain := total_budget - used in
    let alloc :=
      if (0 <? remain) && any idx_hard then
        let give := even_split remain (mask_count idx_hard) in
        mask_set alloc idx_hard
          (map (clip n_low n_up)
               (zip_with Z.add (mask_get alloc idx_hard) give))
      else alloc in
    let diff := total_budget - zsum alloc in
    if negb (diff =? 0) && (0 <? Z.of_nat M) then
      let sgn := if 0 <? diff then 1 else -1 in
      Ok (repair alloc sgn (Z.abs diff) n_low n_up)
    else Ok alloc.

(** The objective of an allocation [Ns] for the probabilities [p]. *)
Fixpoint total_value (p : list Q) (Ns : list Z) : Q :=
  match p, Ns with
  | pi :: p', n :: Ns' => (value pi n + total_value p' Ns')%Q
  | _, _ => 0%Q
  end.

End Allocator.

Module Estimator.

Record SuccessRateEstimator : Type := mkEstimator {
  ema : Q;
  alpha : Q;
  beta : Q;
  _succ_fail_ema : gmap string (Q * Q)
}.


(** The dictionary [step_aggr], in insertion order. *)
Definition aggr : Type := list (string * (Z * Z)).

(** [d.get(u, dflt)] *)
Fixpoint aggr_get (d : aggr) (u : string) (dflt : Z * Z) : Z * Z :=
  match d with
  | [] => dflt
  | (k, v) :: d' => if String.eqb k u then v else aggr_get d' u dflt
  end.

(** [d[u] = v]: a present key keeps its place, a new key goes last. *)
Fixpoint aggr_set (d : aggr) (u : string) (v : Z * Z) : aggr :=
  match d with
  | [] => [(u, v)]
  | (k, x) :: d' =>
      if String.eqb k u then (k, v) :: d' else (k, x) :: aggr_set d' u v
  end.

(** The body of the first loop of [update_batch]. *)
Definition aggr_step (step_aggr : aggr) (us : string * Z) : aggr :=
  let '(u, s) := us in
  let s := if 0 <? s then 1 else 0 in
  let '(a, b) := aggr_get step_aggr u (0, 0) in
  let '(a, b) := if negb (s =? 0) then (a + 1, b) else (a, b + 1) in
  aggr_set step_aggr u (a, b).

(** The body of the second loop of [update_batch]. *)
Definition ema_step (decay : Q) (store : gmap string (Q * Q))
  (item : string * (Z * Z)) : gmap string (Q * Q) :=
  let '(u, (a, b)) := item in
  let '(sa, sb) := default (0%Q, 0%Q) (store !! u) in
  let sa := (decay * sa + (1 - decay) * inject_Z a)%Q in
  let sb := (decay * sb + (1 - decay) * inject_Z b)%Q in
  <[u := (sa, sb)]> store.

Definition update_batch (self : SuccessRateEstimator) (uids : list string)
  (successes : list Z) : result SuccessRateEstimator :=
  if negb (length uids =? length successes)%nat then Raise AssertionError
  else
    let step_aggr := fold_left aggr_step (zip uids successes) [] in
    Ok (mkEstimator (ema self) (alpha self) (beta self)
          (fold_left (ema_step (ema self)) step_aggr (_succ_fail_ema self))).


(** A sequence of [update_batch] calls. *)
Fixpoint update_batches (self : SuccessRateEstimator)
  (calls : list (list string * list Z)) : result SuccessRateEstimator :=
  match calls with
  | [] => Ok self
  | (uids, successes) :: rest =>
      let* self' := update_batch self uids successes in
      update_batches self' rest
  end.

End Estimator.

Module Trainer.

Import Allocator Estimator.




End Trainer.

Module Tests.

Import Allocator.

(** [a[j]] for a sequence [a] and an integer [j]: a negative index counts
    from the end, and [None] stands for [IndexError]. *)
Definition py_index {A : Type} (a : list A) (j : Z) : option A :=
  let n := Z.of_nat (length a) in
  if 0 <=? j then a !! Z.to_nat j
  else if - n <=? j then a !! Z.to_nat (n + j)
  else None.

(** The body of the loop of [_total_value] in [test_allocator_unit.py]. *)
Definition total_value_step (p_vec : list Q) (Ns : list Z) (n_low n_up : Z)
  (val : option Q) (i : nat) : option Q :=
  match val with
  | None => None
  | Some v =>
      match p_vec !! i, py_index Ns (Z.of_nat i) with
      | Some pi, Some n =>
          match py_index (_value_table pi n_low n_up) (n - n_low) with
          | Some x => Some (v + x)%Q
          | None => None
          end
      | _, _ => None
      end
  end.

Definition _total_value (p_vec : list Q) (Ns : list Z) (n_low n_up : Z)
  : option Q :=
  fold_left (total_value_step p_vec Ns n_low n_up)
            (seq 0 (length p_vec)) (Some 0%Q).

End Tests.

(** * Vocabulary of the proofs *)

Import Allocator.

(** [row[b]] for a row of [dp]. *)
Definition rd (row : list Q) (b : Z) : Q := nth (Z.to_nat b) row 0%Q.

(** The increment of the dynamic programme for the excess [k]. *)
Definition inc (vi : list Q) (k : Z) : Q :=
  if 0 <? k then (nth (Z.to_nat k) vi 0 - nth 0 vi 0)%Q else 0%Q.

(** A candidate that the innermost loop does not skip. *)
Definition live (prev : list Q) (b k : Z) : Prop :=
  Qle_bool (rd prev (b - k)) NEG_CUT = false.

(** The sum of the increments of the excesses [es] over the tables [items]. *)
Fixpoint gain (items : list (list Q)) (es : list Z) : Q :=
  match items, es with
  | vi :: items', e :: es' => (inc vi e + gain items' es')%Q
  | _, _ => 0%Q
  end.

(** Excesses [es] for [i] items that spend exactly [b], each at most [D]. *)
Definition feasible_es (D : Z) (i : nat) (b : Z) (es : list Z) : Prop :=
  length es = i /\ Forall (fun e => 0 <= e <= D) es /\ zsum es = b.

(** The states of the dynamic programme that some choice of excesses
    reaches. *)
Definition reach (D : Z) (i : nat) (b : Z) : Prop :=
  0 <= b <= Z.of_nat i * D.

(** A table whose increments are not negative. *)
Definition nonneg_table (D : Z) (vi : list Q) : Prop :=
  forall k, 0 <= k <= D -> (0 <= inc vi k)%Q.

(** What the loop over the excesses maintains after the excesses below [k]. *)
Definition cell_inv (vi prev : list Q) (b k : Z) (st : Q * Z) : Prop :=
  (0 <= snd st < Z.max k 1) /\
  (st = (rd prev b, 0) \/
   (live prev b (snd st) /\
    fst st = (rd prev (b - snd st) + inc vi (snd st))%Q)) /\
  (rd prev b <= fst st)%Q /\
  (forall j, 0 <= j < k -> live prev b j ->
             (rd prev (b - j) + inc vi j <= fst st)%Q).

(** What row [length items] of [dp] holds. *)
Definition row_inv (B D : Z) (items : list (list Q)) (row : list Q) : Prop :=
  length row = Z.to_nat (B + 1) /\
  forall b, 0 <= b <= B ->
    (~ reach D (length items) b -> rd row b = NEG_INF) /\
    (reach D (length items) b ->
       (0 <= rd row b)%Q /\
       forall es, feasible_es D (length items) b es ->
                  (gain items es <= rd row b)%Q).

(** An allocation within the bounds that spends exactly the budget. *)
Definition feasible (M : nat) (n_low n_up total_budget : Z) (Ns : list Z)
  : Prop :=
  length Ns = M /\ Forall (fun n => n_low <= n <= n_up) Ns /\
  zsum Ns = total_budget.

(** ** The stages of [allocate_with_extremes] *)

Definition idx_hard (p : list Q) : list bool :=
  map (fun x => Qle_bool x eps) p.

Definition idx_easy (p : list Q) : list bool :=
  map (fun x => Qle_bool (1 - eps) x) p.

Definition idx_mid (p : list Q) : list bool :=
  zip_with (fun h e => negb h && negb e) (idx_hard p) (idx_easy p).







(** ** The estimator *)

Import Estimator.

(** The number of trials of the key [u] in one call whose outcome counts
    as a success, and the number of its other trials. *)
Definition n_success (u : string) (obs : list (string * Z)) : Z :=
  Z.of_nat (length (List.filter
                      (fun ks => String.eqb (fst ks) u && (0 <? snd ks))
                      obs)).

Definition n_failure (u : string) (obs : list (string * Z)) : Z :=
  Z.of_nat (length (List.filter
                      (fun ks => String.eqb (fst ks) u && negb (0 <? snd ks))
                      obs)).

(** The counters of a key after a call in which it had [a] successes and
    [b] failures. *)
Definition ema_update (decay : Q) (old : option (Q * Q)) (a b : Z) : Q * Q :=
  let '(sa, sb) := default (0%Q, 0%Q) old in
  ((decay * sa + (1 - decay) * inject_Z a)%Q,
   (decay * sb + (1 - decay) * inject_Z b)%Q).

(** The outcome as the first loop of [update_batch] reads it. *)
Definition coerce (s : Z) : Z := if 0 <? s then 1 else 0.

(** ** Vocabulary of the further properties *)







(** * Arithmetic and list facts *)

Lemma NEG_INF_lt_CUT : (NEG_INF < NEG_CUT)%Q.
Proof. reflexivity. Qed.

Lemma NEG_CUT_neg : (NEG_CUT < 0)%Q.
Proof. reflexivity. Qed.

Global Opaque NEG_INF NEG_CUT.

Lemma Qgt_bool_true x y : Qgt_bool x y = true <-> (y < x)%Q.
Proof.
  unfold Qgt_bool. rewrite negb_true_iff.
  destruct (Qle_bool x y) eqn:E.
  - apply Qle_bool_iff in E. split; [discriminate | intros; lra].
  - split; [intros _ | reflexivity].
    apply Qnot_le_lt. intros H. apply Qle_bool_iff in H. congruence.
Qed.

Lemma Qgt_bool_false x y : Qgt_bool x y = false <-> (x <= y)%Q.
Proof.
  unfold Qgt_bool. rewrite negb_false_iff. apply Qle_bool_iff.
Qed.

Lemma Qle_bool_false x y : Qle_bool x y = false <-> (y < x)%Q.
Proof.
  rewrite <- Qgt_bool_true. unfold Qgt_bool. rewrite negb_true_iff. tauto.
Qed.

Lemma fold_range_inv {S : Type} (f : S -> Z -> S) (P : Z -> S -> Prop)
  (s0 : S) (n : Z) :
  0 <= n ->
  P 0 s0 ->
  (forall k s, 0 <= k < n -> P k s -> P (k + 1) (f s k)) ->
  P n (fold_left f (range 0 n) s0).
Proof.
  intros Hn H0 Hstep. unfold range. rewrite Z.sub_0_r.
  revert Hstep. pattern n. apply natlike_ind; [| | exact Hn].
  - intros _. exact H0.
  - intros m Hm IH Hstep.
    replace (Z.succ m) with (m + 1) by lia.
    rewrite seqZ_app by lia. rewrite fold_left_app. simpl.
    apply Hstep; [lia |]. apply IH. intros k s Hk. apply Hstep. lia.
Qed.

Lemma nth_map_range {A : Type} (f : Z -> A) (n b : Z) (d : A) :
  0 <= b < n -> nth (Z.to_nat b) (map f (range 0 n)) d = f b.
Proof.
  intros Hb. unfold range. rewrite Z.sub_0_r.
  change (map f (seqZ 0 n)) with (f <$> seqZ 0 n).
  rewrite nth_lookup, list_lookup_fmap, lookup_seqZ_lt by lia.
  simpl. f_equal. lia.
Qed.

Lemma length_range (lo hi : Z) : length (range lo hi) = Z.to_nat (hi - lo).
Proof. unfold range. apply length_seqZ. Qed.

(** * The dynamic programme *)

Section DynamicProgramme.

Variables B D : Z.
Hypothesis HB : 0 <= B.
Hypothesis HD : 0 <= D.

Lemma dp_try_eq vi prev b best best_k k :
  dp_try vi prev b (best, best_k) k =
  if Qle_bool (rd prev (b - k)) NEG_CUT then (best, best_k)
  else if Qgt_bool (rd prev (b - k) + inc vi k) best
       then ((rd prev (b - k) + inc vi k)%Q, k)
       else (best, best_k).
Proof. reflexivity. Qed.

Lemma cell_inv_init vi prev b : cell_inv vi prev b 0 (rd prev b, 0).
Proof.
  unfold cell_inv. simpl. split; [lia |]. split; [left; reflexivity |].
  split; [lra |]. intros j Hj. lia.
Qed.

Lemma cell_inv_step vi prev b k st :
  0 <= k -> cell_inv vi prev b k st ->
  cell_inv vi prev b (k + 1) (dp_try vi prev b st k).
Proof.
  intros Hk (Hr & Hv & Hlo & Hub). destruct st as [best best_k].
  rewrite dp_try_eq. simpl in *.
  destruct (Qle_bool (rd prev (b - k)) NEG_CUT) eqn:Ecut.
  - repeat split; simpl; try lia; try assumption.
    intros j Hj Hl. destruct (Z.eq_dec j k) as [-> | Hne].
    + unfold live in Hl. congruence.
    + apply Hub; [lia | assumption].
  - destruct (Qgt_bool (rd prev (b - k) + inc vi k) best) eqn:Egt.
    + apply Qgt_bool_true in Egt.
      repeat split; simpl; try lia.
      * right. split; [exact Ecut | reflexivity].
      * lra.
      * intros j Hj Hl. destruct (Z.eq_dec j k) as [-> | Hne]; [lra |].
        specialize (Hub j ltac:(lia) Hl). lra.
    + apply Qgt_bool_false in Egt.
      repeat split; simpl; try lia; try assumption.
      intros j Hj Hl. destruct (Z.eq_dec j k) as [-> | Hne]; [lra |].
      apply Hub; [lia | assumption].
Qed.

Lemma dp_cell_inv vi prev b :
  0 <= b ->
  cell_inv vi prev b (Z.min b D + 1) (dp_cell vi prev D b).
Proof.
  intros Hb. unfold dp_cell.
  apply (fold_range_inv (dp_try vi prev b) (cell_inv vi prev b)).
  - lia.
  - apply cell_inv_init.
  - intros k s Hk. apply cell_inv_step. lia.
Qed.


Lemma rd_row0_0 : rd (dp_row0 B) 0 = 0%Q.
Proof.
  unfold rd, dp_row0. simpl.
  destruct (Z.to_nat (B + 1)) eqn:E; [lia | reflexivity].
Qed.

Lemma length_row0 : length (dp_row0 B) = Z.to_nat (B + 1).
Proof.
  unfold dp_row0. rewrite length_insert, length_replicate. reflexivity.
Qed.

Lemma rd_row0_in b : 0 < b <= B -> rd (dp_row0 B) b = NEG_INF.
Proof.
  intros Hb. unfold rd, dp_row0.
  destruct (Z.to_nat b) as [|n] eqn:E; [lia |].
  destruct (Z.to_nat (B + 1)) as [|m] eqn:Em; [lia |]. simpl.
  rewrite nth_lookup.
  rewrite lookup_replicate_2 by lia. reflexivity.
Qed.

Lemma row0_inv : row_inv B D [] (dp_row0 B).
Proof.
  split; [apply length_row0 |].
  intros b Hb. unfold reach. simpl. split.
  - intros Hn. apply rd_row0_in. lia.
  - intros Hr. assert (b = 0) as -> by lia. rewrite rd_row0_0.
    split; [lra |]. intros es (Hlen & _ & _).
    destruct es; [simpl; lra | discriminate].
Qed.

Lemma rd_dp_row vi prev b :
  0 <= b <= B ->
  rd (map fst (dp_row vi prev B D)) b = fst (dp_cell vi prev D b).
Proof.
  intros Hb. unfold rd, dp_row. rewrite map_map.
  apply (nth_map_range (fun x => fst (dp_cell vi prev D x))). lia.
Qed.

Lemma choice_dp_row vi prev b :
  0 <= b <= B ->
  nth (Z.to_nat b) (map snd (dp_row vi prev B D)) (-1) =
  snd (dp_cell vi prev D b).
Proof.
  intros Hb. unfold dp_row. rewrite map_map.
  apply (nth_map_range (fun x => snd (dp_cell vi prev D x))). lia.
Qed.

Lemma length_dp_row vi prev :
  length (dp_row vi prev B D) = Z.to_nat (B + 1).
Proof.
  unfold dp_row. rewrite length_map, length_range. f_equal. lia.
Qed.

End DynamicProgramme.

(** ** Sums of counts *)

Lemma zsum_app l1 l2 : zsum (l1 ++ l2) = zsum l1 + zsum l2.
Proof. induction l1 as [|x l1 IH]; simpl; lia. Qed.

Lemma zsum_bounds lo hi l :
  Forall (fun e => lo <= e <= hi) l ->
  Z.of_nat (length l) * lo <= zsum l <= Z.of_nat (length l) * hi.
Proof.
  induction 1 as [|x l Hx Hl IH]; simpl; [lia |].
  rewrite Nat2Z.inj_succ. lia.
Qed.

Lemma zsum_replicate n x : zsum (replicate n x) = Z.of_nat n * x.
Proof. induction n as [|n IH]; simpl; [lia |]. rewrite IH. lia. Qed.

Lemma gain_snoc items vi es e :
  length es = length items ->
  (gain (items ++ [vi]) (es ++ [e]) == gain items es + inc vi e)%Q.
Proof.
  revert es. induction items as [|v items IH]; intros [|x es] Hlen;
    simpl in *; try discriminate.
  - lra.
  - rewrite IH by congruence. lra.
Qed.

Lemma feasible_es_snoc D i b es e :
  feasible_es D i b es -> 0 <= e <= D ->
  feasible_es D (S i) (b + e) (es ++ [e]).
Proof.
  intros (Hlen & Hall & Hsum) He. repeat split.
  - rewrite length_app. simpl. lia.
  - apply Forall_app. split; [assumption |]. constructor; [lia | constructor].
  - rewrite zsum_app. simpl. lia.
Qed.

Lemma feasible_es_snoc_inv D i b es :
  feasible_es D (S i) b es ->
  exists es' e, es = es' ++ [e] /\ feasible_es D i (b - e) es' /\
                0 <= e <= D /\ e <= b /\ b - e <= Z.of_nat i * D.
Proof.
  intros (Hlen & Hall & Hsum).
  destruct es as [|x es _] using rev_ind; [discriminate |].
  rewrite length_app in Hlen. simpl in Hlen.
  apply Forall_app in Hall. destruct Hall as [Hall He].
  inversion He as [|? ? Hx _]; subst.
  rewrite zsum_app. simpl.
  pose proof (zsum_bounds 0 D es Hall) as Hb.
  assert (length es = i) as Hi by lia. rewrite Hi in Hb.
  exists es, x. repeat split; try assumption; try lia.
Qed.

Section DynamicProgrammeRows.

Variables B n_low n_up D : Z.
Hypothesis HB : 0 <= B.
Hypothesis HD : 0 <= D.
Hypothesis HDeq : D = Z.min B (n_up - n_low).

Lemma reach_dec i b : reach D i b \/ ~ reach D i b.
Proof. unfold reach. lia. Qed.

Lemma row_step items prev vi :
  nonneg_table D vi ->
  row_inv B D items prev ->
  row_inv B D (items ++ [vi]) (map fst (dp_row vi prev B D)).
Proof.
  intros Hnn [Hlen Hrow]. split.
  { rewrite length_map. apply length_dp_row. }
  intros b Hb. rewrite rd_dp_row by assumption.
  destruct (dp_cell_inv D HD vi prev b ltac:(lia)) as (Hr & Hv & Hlo & Hub).
  rewrite length_app. simpl length.
  replace (length items + 1)%nat with (S (length items)) by lia.
  split.
  - intros Hnr. destruct Hv as [-> | [Hl _]].
    + simpl. apply (Hrow b Hb). unfold reach in *. nia.
    + exfalso. set (k := snd (dp_cell vi prev D b)) in *.
      assert (Hk : 0 <= b - k <= B) by lia.
      destruct (Hrow (b - k) Hk) as [Hdead _].
      unfold live in Hl. apply Qle_bool_false in Hl.
      rewrite Hdead in Hl by (unfold reach in *; nia).
      pose proof NEG_INF_lt_CUT. lra.
  - intros Hre.
    set (k0 := Z.max 0 (b - Z.of_nat (length items) * D)).
    assert (Hk0 : 0 <= k0 <= Z.min b D) by (unfold reach in Hre; nia).
    assert (Hb0 : 0 <= b - k0 <= B) by lia.
    assert (Hr0 : reach D (length items) (b - k0)) by (unfold reach in *; nia).
    destruct (Hrow (b - k0) Hb0) as [_ Halive].
    destruct (Halive Hr0) as [Hge0 _].
    assert (Hl0 : live prev b k0).
    { unfold live. apply Qle_bool_false. pose proof NEG_CUT_neg. lra. }
    pose proof (Hub k0 ltac:(lia) Hl0) as Hbest.
    pose proof (Hnn k0 ltac:(lia)) as Hinc.
    split; [lra |].
    intros es Hes.
    destruct (feasible_es_snoc_inv D _ b es Hes)
      as (es' & e & -> & Hes' & He & Heb & Hreach).
    rewrite gain_snoc by (destruct Hes' as [-> _]; reflexivity).
    assert (Hbe : 0 <= b - e <= B) by lia.
    destruct (Hrow (b - e) Hbe) as [_ Hal].
    destruct (Hal ltac:(unfold reach; lia)) as [Hge Hopt].
    assert (Hle : live prev b e).
    { unfold live. apply Qle_bool_false. pose proof NEG_CUT_neg. lra. }
    specialize (Hub e ltac:(lia) Hle). specialize (Hopt es' Hes'). lra.
Qed.

(** In a reachable state the recorded choice leads to a reachable state of
    the row before, and accounts for the value of the cell. *)
Lemma choice_step items prev vi b :
  nonneg_table D vi ->
  row_inv B D items prev ->
  0 <= b <= B ->
  reach D (S (length items)) b ->
  let k := snd (dp_cell vi prev D b) in
  0 <= k <= D /\ 0 <= b - k <= B /\ reach D (length items) (b - k) /\
  (fst (dp_cell vi prev D b) == rd prev (b - k) + inc vi k)%Q.
Proof.
  intros Hnn Hinv Hb Hre k.
  pose proof (row_step items prev vi Hnn Hinv) as [_ Hnew].
  specialize (Hnew b Hb). rewrite rd_dp_row in Hnew by assumption.
  rewrite length_app in Hnew. simpl length in Hnew.
  replace (length items + 1)%nat with (S (length items)) in Hnew by lia.
  destruct Hnew as [_ Hnew]. destruct (Hnew Hre) as [Hge _].
  destruct Hinv as [_ Hrow].
  destruct (dp_cell_inv D HD vi prev b ltac:(lia)) as (Hr & Hv & _ & _).
  fold k in Hr, Hv.
  assert (Hk : 0 <= k <= Z.min b D) by lia.
  assert (Hbk : 0 <= b - k <= B) by lia.
  assert (Hreach : reach D (length items) (b - k)).
  { destruct (reach_dec (length items) (b - k)) as [|Hn]; [assumption |].
    exfalso. destruct (Hrow (b - k) Hbk) as [Hdead _].
    specialize (Hdead Hn). pose proof NEG_INF_lt_CUT. pose proof NEG_CUT_neg.
    destruct Hv as [Hst | [Hl _]].
    - assert (k = 0) as Hk0 by (unfold k; rewrite Hst; reflexivity).
      rewrite Hst in Hge. simpl in Hge.
      rewrite Hk0, Z.sub_0_r in Hdead. rewrite Hdead in Hge. lra.
    - unfold live in Hl. apply Qle_bool_false in Hl.
      rewrite Hdead in Hl. lra. }
  split; [lia |]. split; [lia |]. split; [exact Hreach |].
  destruct Hv as [Hst | [_ Hval]].
  - assert (k = 0) as Hk0 by (unfold k; rewrite Hst; reflexivity).
    rewrite Hk0, Z.sub_0_r. rewrite Hst. simpl. unfold inc. simpl. lra.
  - rewrite Hval. reflexivity.
Qed.

Lemma dp_fill_snoc vt vi :
  dp_fill (vt ++ [vi]) B n_low n_up =
  dp_step B n_low n_up (dp_fill vt B n_low n_up) vi.
Proof. unfold dp_fill. rewrite fold_left_app. reflexivity. Qed.

Lemma dp_step_eq prev choice vi :
  dp_step B n_low n_up (prev, choice) vi =
  (map fst (dp_row vi prev B D), choice ++ [map snd (dp_row vi prev B D)]).
Proof. unfold dp_step. rewrite <- HDeq. reflexivity. Qed.

(** The final row is optimal and backtracking realises it. *)
Lemma dp_fill_inv vt :
  Forall (nonneg_table D) vt ->
  row_inv B D vt (fst (dp_fill vt B n_low n_up)) /\
  forall b, 0 <= b <= B -> reach D (length vt) b ->
    let es := backtrack (rev (snd (dp_fill vt B n_low n_up))) b in
    feasible_es D (length vt) b es /\
    (gain vt es == rd (fst (dp_fill vt B n_low n_up)) b)%Q.
Proof.
  induction vt as [|vi vt IH] using rev_ind; intros Hnn.
  - split; [apply row0_inv; assumption |].
    intros b Hb Hre. unfold reach in Hre. simpl in *.
    assert (b = 0) as -> by lia. split.
    + split; [reflexivity |]. split; [constructor | reflexivity].
    + unfold dp_fill. simpl. rewrite rd_row0_0 by assumption. reflexivity.
  - apply Forall_app in Hnn. destruct Hnn as [Hnn Hvi].
    apply Forall_inv in Hvi. rename Hvi into Hnvi.
    destruct (IH Hnn) as [Hinv Hback]. clear IH.
    rewrite dp_fill_snoc.
    destruct (dp_fill vt B n_low n_up) as [prev choice].
    cbn [fst snd] in Hinv, Hback.
    rewrite dp_step_eq. cbn [fst snd].
    split; [apply row_step; assumption |].
    intros b Hb Hre. rewrite length_app in Hre |- *. simpl length in *.
    replace (length vt + 1)%nat with (S (length vt)) in * by lia.
    rewrite rev_app_distr. simpl rev. simpl app. cbn [backtrack].
    rewrite choice_dp_row by assumption.
    destruct (choice_step vt prev vi b Hnvi Hinv Hb Hre)
      as (Hk & Hbk & Hreach & Hval).
    set (k := snd (dp_cell vi prev D b)) in *.
    assert (Hk0 : (k <? 0) = false) by (apply Z.ltb_ge; lia).
    rewrite Hk0.
    destruct (Hback (b - k) Hbk Hreach) as [Hfe Hg].
    split.
    + replace b with ((b - k) + k) at 1 by lia.
      apply feasible_es_snoc; assumption.
    + rewrite gain_snoc by (destruct Hfe as [-> _]; reflexivity).
      rewrite rd_dp_row by assumption. rewrite Hg, Hval. reflexivity.
Qed.

End DynamicProgrammeRows.

(** * The value model *)

Lemma Qle_bool_true x y : Qle_bool x y = true <-> (x <= y)%Q.
Proof. apply Qle_bool_iff. Qed.

Lemma value_outside p k : (p <= 0 \/ 1 <= p)%Q -> (value p k == 0)%Q.
Proof.
  intros Hp. unfold value, _prob_nonzero_grad.
  assert (Qle_bool p 0 || Qle_bool 1 p = true) as ->.
  { apply orb_true_iff. rewrite !Qle_bool_true. exact Hp. }
  simpl. lra.
Qed.

Lemma value_inside p k :
  (0 < p < 1)%Q ->
  value p k =
  ((if k <=? 0 then 0 else 1 - p ^ k - (1 - p) ^ k) *
   (p * (1 - p) * (1 - p)))%Q.
Proof.
  intros Hp. unfold value, _prob_nonzero_grad, _info_gain.
  assert (Qle_bool p 0 = false) as -> by (apply Qle_bool_false; lra).
  assert (Qle_bool 1 p = false) as -> by (apply Qle_bool_false; lra).
  reflexivity.
Qed.

Lemma Qpower_succ q k : 0 < k -> (q ^ (k + 1) == q ^ k * q)%Q.
Proof.
  intros Hk. rewrite Qpower_plus' by lia. simpl. reflexivity.
Qed.

(** One more draw cannot lower the chance of a mixed outcome. *)
Lemma grad_step p k :
  (0 < p < 1)%Q -> 0 < k ->
  (1 - p ^ k - (1 - p) ^ k <= 1 - p ^ (k + 1) - (1 - p) ^ (k + 1))%Q.
Proof.
  intros Hp Hk. rewrite !Qpower_succ by assumption.
  assert (H1 : (0 <= p ^ k)%Q) by (apply Qpower_0_le; lra).
  assert (H2 : (0 <= (1 - p) ^ k)%Q) by (apply Qpower_0_le; lra).
  assert (H3 : (0 <= p ^ k * (1 - p))%Q) by (apply Qmult_le_0_compat; lra).
  assert (H4 : (0 <= (1 - p) ^ k * p)%Q) by (apply Qmult_le_0_compat; lra).
  lra.
Qed.

Lemma value_step p k : (value p k <= value p (k + 1))%Q.
Proof.
  destruct (Qlt_le_dec 0 p) as [H0 | H0];
    [destruct (Qlt_le_dec p 1) as [H1 | H1] |].
  - rewrite !value_inside by lra.
    assert (Hg : (0 <= p * (1 - p) * (1 - p))%Q).
    { apply Qmult_le_0_compat; [apply Qmult_le_0_compat |]; lra. }
    apply Qmult_le_compat_r; [| exact Hg].
    destruct (k <=? 0) eqn:E1; destruct (k + 1 <=? 0) eqn:E2;
      try apply Z.leb_le in E1; try apply Z.leb_le in E2;
      try apply Z.leb_gt in E1; try apply Z.leb_gt in E2; try lia.
    + lra.
    + assert (k = 0) as -> by lia. simpl. lra.
    + apply grad_step; [lra | lia].
  - rewrite !value_outside by (right; lra). lra.
  - rewrite !value_outside by (left; lra). lra.
Qed.

(** The value of a key is monotone in its count. *)
Lemma value_mono p k k' : k <= k' -> (value p k <= value p k')%Q.
Proof.
  intros Hle. replace k' with (k + (k' - k)) by lia.
  assert (Hd : 0 <= k' - k) by lia. revert Hd.
  generalize (k' - k). intros d Hd. pattern d.
  apply natlike_ind; [| | exact Hd].
  - rewrite Z.add_0_r. lra.
  - intros x Hx IH. replace (k + Z.succ x) with (k + x + 1) by lia.
    pose proof (value_step p (k + x)). lra.
Qed.

Lemma nth_value_table p n_low n_up k :
  0 <= k <= n_up - n_low ->
  nth (Z.to_nat k) (_value_table p n_low n_up) 0%Q = value p (n_low + k).
Proof.
  intros Hk. unfold _value_table, range.
  change (map (fun k0 => value p k0) (seqZ n_low (n_up + 1 - n_low)))
    with ((fun k0 => value p k0) <$> seqZ n_low (n_up + 1 - n_low)).
  rewrite nth_lookup, list_lookup_fmap, lookup_seqZ_lt by lia.
  simpl. f_equal. lia.
Qed.

Lemma inc_value_table p n_low n_up k :
  0 <= k <= n_up - n_low ->
  (inc (_value_table p n_low n_up) k ==
   value p (n_low + k) - value p n_low)%Q.
Proof.
  intros Hk. unfold inc. destruct (0 <? k) eqn:E.
  - rewrite (nth_value_table p n_low n_up k) by lia.
    change 0%nat with (Z.to_nat 0).
    rewrite (nth_value_table p n_low n_up 0) by lia.
    rewrite Z.add_0_r. reflexivity.
  - apply Z.ltb_ge in E. assert (k = 0) as -> by lia.
    rewrite Z.add_0_r. lra.
Qed.

Lemma nonneg_value_table p n_low n_up D :
  D <= n_up - n_low -> nonneg_table D (_value_table p n_low n_up).
Proof.
  intros HD k Hk. rewrite inc_value_table by lia.
  pose proof (value_mono p n_low (n_low + k) ltac:(lia)). lra.
Qed.

Lemma nonneg_value_tables p n_low n_up D :
  D <= n_up - n_low ->
  Forall (nonneg_table D) (map (fun pi => _value_table pi n_low n_up) p).
Proof.
  intros HD. apply Forall_map. apply Forall_forall.
  intros x _. apply nonneg_value_table. exact HD.
Qed.

(** The objective splits into the value of the baseline and the gain of
    the excesses. *)
Lemma total_value_gain p n_low n_up es :
  length es = length p ->
  Forall (fun e => 0 <= e <= n_up - n_low) es ->
  (total_value p (zip_with Z.add (replicate (length p) n_low) es) ==
   total_value p (replicate (length p) n_low) +
   gain (map (fun pi => _value_table pi n_low n_up) p) es)%Q.
Proof.
  revert es. induction p as [|pi p IH]; intros [|e es] Hlen Hall;
    simpl in *; try discriminate; try lra.
  inversion Hall as [|? ? He Hes]; subst.
  rewrite IH by (try assumption; congruence).
  rewrite inc_value_table by lia. lra.
Qed.

(** * [_knapsack_dp] *)

Lemma zip_add_replicate n es :
  zip_with Z.add (replicate (length es) n) es = map (Z.add n) es.
Proof.
  induction es as [|e es IH]; simpl; [reflexivity |].
  rewrite IH. reflexivity.
Qed.

Lemma zsum_map_add n es :
  zsum (map (Z.add n) es) = Z.of_nat (length es) * n + zsum es.
Proof.
  induction es as [|e es IH]; simpl; [lia |].
  rewrite IH. lia.
Qed.

Lemma map_add_sub n Ns : map (Z.add n) (map (fun x => x - n) Ns) = Ns.
Proof.
  induction Ns as [|x Ns IH]; simpl; [reflexivity |].
  rewrite IH. f_equal. lia.
Qed.

Lemma zsum_map_sub n Ns :
  zsum (map (fun x => x - n) Ns) = zsum Ns - Z.of_nat (length Ns) * n.
Proof.
  induction Ns as [|x Ns IH]; simpl; [lia |].
  rewrite IH. lia.
Qed.

(** An entry of a list of non-negative counts is at most their sum. *)
Lemma zsum_entry_le es :
  Forall (fun e => 0 <= e) es -> Forall (fun e => e <= zsum es) es.
Proof.
  induction 1 as [|e es He Hes IH]; simpl; constructor.
  - assert (0 <= zsum es); [| lia].
    clear IH. induction Hes; simpl; lia.
  - eapply Forall_impl; [exact IH |]. simpl. intros x Hx. lia.
Qed.

Lemma feasible_excess M n_low n_up T Ns :
  feasible M n_low n_up T Ns ->
  feasible_es (Z.min (T - Z.of_nat M * n_low) (n_up - n_low)) M
              (T - Z.of_nat M * n_low) (map (fun x => x - n_low) Ns).
Proof.
  intros (Hlen & Hall & Hsum). repeat split.
  - rewrite length_map. exact Hlen.
  - assert (H0 : Forall (fun e => 0 <= e) (map (fun x => x - n_low) Ns)).
    { apply Forall_map. eapply Forall_impl; [exact Hall |]. simpl. lia. }
    apply zsum_entry_le in H0. rewrite zsum_map_sub, Hsum, Hlen in H0.
    rewrite Forall_map in H0 |- *.
    rewrite Forall_forall in H0, Hall |- *.
    intros x Hx. specialize (H0 x Hx). specialize (Hall x Hx). simpl in *. lia.
  - rewrite zsum_map_sub, Hsum, Hlen. reflexivity.
Qed.

Lemma excess_feasible M n_low n_up D B es :
  0 <= D <= n_up - n_low ->
  feasible_es D M B es ->
  feasible M n_low n_up (Z.of_nat M * n_low + B)
           (zip_with Z.add (replicate M n_low) es).
Proof.
  intros HD (Hlen & Hall & Hsum). subst M.
  rewrite zip_add_replicate. repeat split.
  - apply length_map.
  - apply Forall_map. eapply Forall_impl; [exact Hall |]. simpl. lia.
  - rewrite zsum_map_add. lia.
Qed.

(** On a feasible budget the dynamic programme returns a feasible
    allocation of maximal objective. *)
Lemma knapsack_dp_optimal p T n_low n_up :
  n_low <= n_up ->
  Z.of_nat (length p) * n_low <= T <= Z.of_nat (length p) * n_up ->
  exists Ns,
    _knapsack_dp p T n_low n_up = Ok Ns /\
    feasible (length p) n_low n_up T Ns /\
    forall Ns', feasible (length p) n_low n_up T Ns' ->
                (total_value p Ns' <= total_value p Ns)%Q.
Proof.
  intros Hn HT. unfold _knapsack_dp.
  rewrite zsum_replicate.
  set (M := length p) in *. set (B := T - Z.of_nat M * n_low).
  assert (HB : 0 <= B) by (unfold B; lia).
  assert ((B <? 0) = false) as -> by (apply Z.ltb_ge; exact HB).
  set (D := Z.min B (n_up - n_low)).
  assert (HD : 0 <= D) by (unfold D; lia).
  set (vt := map (fun pi => _value_table pi n_low n_up) p).
  assert (Hnn : Forall (nonneg_table D) vt).
  { apply nonneg_value_tables. unfold D. lia. }
  destruct (dp_fill_inv B n_low n_up D HB HD eq_refl vt Hnn) as [Hinv Hback].
  assert (Hlen : length vt = M) by (unfold vt; apply length_map).
  rewrite Hlen in Hback.
  assert (Hre : reach D M B).
  { unfold reach, D. split; [lia |].
    destruct (Z.eq_dec (Z.of_nat M) 0) as [E | E]; [unfold B in *; nia |].
    destruct (Z.min_spec B (n_up - n_low)) as [[_ ->] | [_ ->]];
      unfold B; nia. }
  destruct (Hback B ltac:(lia) Hre) as [Hfe Hg]. clear Hback.
  destruct (dp_fill vt B n_low n_up) as [row choice] eqn:Efill.
  simpl in Hinv, Hfe, Hg.
  eexists. split; [reflexivity |]. split.
  - replace T with (Z.of_nat M * n_low + B) by (unfold B; lia).
    apply (excess_feasible M n_low n_up D); [unfold D; lia | exact Hfe].
  - intros Ns' HNs'.
    pose proof (feasible_excess M n_low n_up T Ns' HNs') as Hes'.
    fold B in Hes'. fold D in Hes'.
    destruct Hinv as [_ Hrow]. destruct (Hrow B ltac:(lia)) as [_ Hopt].
    rewrite Hlen in Hopt. destruct (Hopt Hre) as [_ Hmax].
    specialize (Hmax _ Hes'). fold vt in Hmax.
    assert (HNs : Ns' = zip_with Z.add (replicate M n_low)
                                 (map (fun x => x - n_low) Ns')).
    { destruct HNs' as (HlenN & _ & _).
      rewrite <- HlenN, <- (length_map (fun x => x - n_low)).
      rewrite zip_add_replicate, map_add_sub. reflexivity. }
    rewrite HNs. unfold M.
    rewrite !(total_value_gain p n_low n_up).
    + fold vt. lra.
    + destruct Hfe as [-> _]. reflexivity.
    + destruct Hfe as (_ & Hall & _). eapply Forall_impl; [exact Hall |].
      simpl. unfold D. lia.
    + destruct Hes' as [-> _]. reflexivity.
    + destruct Hes' as (_ & Hall & _). eapply Forall_impl; [exact Hall |].
      simpl. unfold D. lia.
Qed.

(** ** Bounds that hold on every budget *)

(** Every read of the innermost loop is inside its array: [dp[i-1, b-k]]
    inside a row of [B + 1] cells and [vi[k]] inside the value table; no
    index is negative. *)
Lemma dp_reads_in_range p n_low n_up B (prev : list Q) b k :
  length prev = Z.to_nat (B + 1) ->
  0 <= b <= B ->
  In k (range 0 (Z.min b (Z.min B (n_up - n_low)) + 1)) ->
  0 <= b - k /\ (Z.to_nat (b - k) < length prev)%nat /\
  0 <= k /\ (Z.to_nat k < length (_value_table p n_low n_up))%nat.
Proof.
  intros Hl Hb Hk. unfold range in Hk.
  apply list_elem_of_In, elem_of_seqZ in Hk.
  unfold _value_table. rewrite length_map, length_range. lia.
Qed.

Lemma length_dp_fill_row B n_low n_up vt :
  length (fst (dp_fill vt B n_low n_up)) = Z.to_nat (B + 1).
Proof.
  induction vt as [|vi vt IH] using rev_ind.
  - apply length_row0.
  - rewrite dp_fill_snoc. destruct (dp_fill vt B n_low n_up) as [prev choice].
    unfold dp_step. cbn [fst]. rewrite length_map. apply length_dp_row.
Qed.





(** Below the baseline the budget is split evenly, rounding down. *)
Lemma knapsack_dp_low p T n_low n_up :
  p <> [] ->
  T < Z.of_nat (length p) * n_low ->
  _knapsack_dp p T n_low n_up =
  Ok (replicate (length p) (Z.max 0 (T / Z.of_nat (length p)))).
Proof.
  intros Hp HT. unfold _knapsack_dp. rewrite zsum_replicate.
  assert ((T - Z.of_nat (length p) * n_low <? 0) = true) as ->
    by (apply Z.ltb_lt; lia).
  assert ((Z.of_nat (length p) =? 0) = false) as ->.
  { apply Z.eqb_neq. destruct p; [congruence | simpl; lia]. }
  reflexivity.
Qed.


(** * [allocate_with_extremes]: stages *)


(** ** Masks *)












(** ** The repair loop *)







(** ** The partition of the keys *)









(** ** Keys that are all easy or mid *)


(** ** Every call that passes the assertions returns *)











(** ** The even split *)


Global Opaque eps.






(** ** Keys that are all hard *)










(** ** The scale-down branch *)


Lemma map_replicate {A B} (f : A -> B) n x :
  map f (replicate n x) = replicate n (f x).
Proof.
  induction n as [|n IH]; simpl; [reflexivity |].
  rewrite IH. reflexivity.
Qed.







(** * The allocator: the claims *)

(** The scenario of the repository's test [test_budget_and_bounds_basic]. *)
Example test_budget_and_bounds_basic :
  allocate_with_extremes [0.2%Q; 0.5%Q; 0.8%Q] 18 2 10 1%Q true
    = Ok [9; 6; 3] /\
  zsum [9; 6; 3] = 18 /\
  Forall (fun n => 2 <= n <= 10) [9; 6; 3].
Proof.
  split; [vm_compute; reflexivity |]. split; [reflexivity |].
  repeat constructor; lia.
Qed.





















(** * The estimator *)

Lemma aggr_get_set_eq d u v dflt : aggr_get (aggr_set d u v) u dflt = v.
Proof.
  induction d as [|[k x] d IH]; simpl.
  - rewrite String.eqb_refl. reflexivity.
  - destruct (String.eqb k u) eqn:E; simpl; rewrite E; [reflexivity | exact IH].
Qed.

Lemma aggr_get_set_ne d u u' v dflt :
  u <> u' -> aggr_get (aggr_set d u v) u' dflt = aggr_get d u' dflt.
Proof.
  intros Hne. induction d as [|[k x] d IH]; simpl.
  - assert (String.eqb u u' = false) as -> by (apply String.eqb_neq; exact Hne).
    reflexivity.
  - destruct (String.eqb k u) eqn:E; simpl.
    + apply String.eqb_eq in E. subst k.
      assert (String.eqb u u' = false) as ->
        by (apply String.eqb_neq; exact Hne).
      reflexivity.
    + destruct (String.eqb k u'); [reflexivity | exact IH].
Qed.

Lemma aggr_set_keys d u v u' :
  In u' (map fst (aggr_set d u v)) <-> u' = u \/ In u' (map fst d).
Proof.
  induction d as [|[k x] d IH]; simpl.
  - intuition congruence.
  - destruct (String.eqb k u) eqn:E; simpl.
    + apply String.eqb_eq in E. subst k. intuition congruence.
    + rewrite IH. intuition congruence.
Qed.

Lemma aggr_set_NoDup d u v :
  List.NoDup (map fst d) -> List.NoDup (map fst (aggr_set d u v)).
Proof.
  induction d as [|[k x] d IH]; simpl; intros Hnd.
  - apply List.NoDup_cons_iff. split; [simpl; tauto | apply List.NoDup_nil].
  - apply List.NoDup_cons_iff in Hnd. destruct Hnd as [Hk Hnd].
    destruct (String.eqb k u) eqn:E; simpl.
    + apply List.NoDup_cons_iff. split; assumption.
    + apply List.NoDup_cons_iff. split; [| apply IH; exact Hnd].
      rewrite aggr_set_keys. intros [-> | Hin]; [| contradiction].
      rewrite String.eqb_refl in E. discriminate.
Qed.

Lemma n_success_cons u k s obs :
  n_success u ((k, s) :: obs) =
  (if String.eqb k u && (0 <? s) then 1 else 0) + n_success u obs.
Proof.
  unfold n_success. simpl. destruct (String.eqb k u && (0 <? s)); simpl; lia.
Qed.

Lemma n_failure_cons u k s obs :
  n_failure u ((k, s) :: obs) =
  (if String.eqb k u && negb (0 <? s) then 1 else 0) + n_failure u obs.
Proof.
  unfold n_failure. simpl.
  destruct (String.eqb k u && negb (0 <? s)); simpl; lia.
Qed.

(** The first loop: the tallies of the call are added to the dictionary. *)
Lemma aggregate_spec obs d u :
  aggr_get (fold_left aggr_step obs d) u (0, 0) =
  (fst (aggr_get d u (0, 0)) + n_success u obs,
   snd (aggr_get d u (0, 0)) + n_failure u obs).
Proof.
  revert d. induction obs as [|[k s] obs IH]; intros d.
  - simpl. unfold n_success, n_failure. simpl. rewrite !Z.add_0_r.
    destruct (aggr_get d u (0, 0)); reflexivity.
  - cbn [fold_left]. rewrite IH, n_success_cons, n_failure_cons.
    unfold aggr_step.
    destruct (aggr_get d k (0, 0)) as [a b] eqn:Ek.
    destruct (String.eqb k u) eqn:E.
    + apply String.eqb_eq in E. subst k. rewrite Ek.
      destruct (0 <? s); cbn [negb andb Z.eqb];
        rewrite aggr_get_set_eq; simpl; f_equal; lia.
    + apply String.eqb_neq in E.
      destruct (0 <? s); cbn [negb andb Z.eqb];
        rewrite aggr_get_set_ne by exact E; f_equal; lia.
Qed.

Lemma aggregate_keys obs d u :
  In u (map fst (fold_left aggr_step obs d)) <->
  In u (map fst d) \/ In u (map fst obs).
Proof.
  revert d. induction obs as [|[k s] obs IH]; intros d.
  - simpl. tauto.
  - cbn [fold_left]. rewrite IH. unfold aggr_step.
    destruct (aggr_get d k (0, 0)) as [a b].
    destruct (negb ((if 0 <? s then 1 else 0) =? 0));
      rewrite aggr_set_keys; simpl; intuition congruence.
Qed.

Lemma aggregate_NoDup obs d :
  List.NoDup (map fst d) -> List.NoDup (map fst (fold_left aggr_step obs d)).
Proof.
  revert d. induction obs as [|[k s] obs IH]; intros d Hnd; [exact Hnd |].
  cbn [fold_left]. apply IH. unfold aggr_step.
  destruct (aggr_get d k (0, 0)) as [a b].
  destruct (negb ((if 0 <? s then 1 else 0) =? 0));
    apply aggr_set_NoDup; exact Hnd.
Qed.

(** The second loop: one update per key of the dictionary. *)
Lemma ema_fold_spec decay d (store : gmap string (Q * Q)) u :
  List.NoDup (map fst d) ->
  (In u (map fst d) ->
   fold_left (ema_step decay) d store !! u =
   Some (ema_update decay (store !! u)
                    (fst (aggr_get d u (0, 0)))
                    (snd (aggr_get d u (0, 0))))) /\
  (~ In u (map fst d) ->
   fold_left (ema_step decay) d store !! u = store !! u).
Proof.
  revert store. induction d as [|[k [a b]] d IH]; intros store Hnd.
  - simpl. split; [tauto | reflexivity].
  - cbn [map fst] in Hnd. apply List.NoDup_cons_iff in Hnd.
    destruct Hnd as [Hk Hnd]. cbn [fold_left].
    set (store1 := ema_step decay store (k, (a, b))).
    destruct (IH store1 Hnd) as [IHin IHout].
    assert (Hk1 : store1 !! k =
                  Some (ema_update decay (store !! k) a b)).
    { unfold store1, ema_step, ema_update.
      destruct (default (0%Q, 0%Q) (store !! k)) as [sa sb].
      apply lookup_insert_eq. }
    assert (Hne : forall u', k <> u' -> store1 !! u' = store !! u').
    { intros u' Hu. unfold store1, ema_step.
      destruct (default (0%Q, 0%Q) (store !! k)) as [sa sb].
      apply lookup_insert_ne. exact Hu. }
    cbn [aggr_get map fst In]. destruct (String.eqb k u) eqn:E.
    + apply String.eqb_eq in E. subst k. split; [intros _ | tauto].
      rewrite (IHout Hk). exact Hk1.
    + apply String.eqb_neq in E. split.
      * intros [Heq | Hin]; [congruence |].
        rewrite (IHin Hin), (Hne u E). reflexivity.
      * intros Hout. rewrite IHout by tauto. apply Hne. exact E.
Qed.

Lemma map_fst_zip {A B} (l : list A) (k : list B) :
  length l = length k -> map fst (zip l k) = l.
Proof.
  revert k. induction l as [|x l IH]; intros [|y k] Hl; simpl in *;
    try discriminate; [reflexivity |].
  rewrite IH by lia. reflexivity.
Qed.

(** What one call of [update_batch] does to the estimator. *)
Lemma update_batch_spec self uids successes :
  length uids = length successes ->
  exists self',
    update_batch self uids successes = Ok self' /\
    ema self' = ema self /\ alpha self' = alpha self /\
    beta self' = beta self /\
    forall u,
      (In u uids ->
       _succ_fail_ema self' !! u =
       Some (ema_update (ema self) (_succ_fail_ema self !! u)
                        (n_success u (zip uids successes))
                        (n_failure u (zip uids successes)))) /\
      (~ In u uids ->
       _succ_fail_ema self' !! u = _succ_fail_ema self !! u).
Proof.
  intros Hl. unfold update_batch.
  assert ((length uids =? length successes)%nat = true) as ->
    by (apply Nat.eqb_eq; exact Hl).
  cbn [negb]. eexists. split; [reflexivity |]. cbn.
  split; [reflexivity |]. split; [reflexivity |]. split; [reflexivity |].
  intros u.
  set (d := fold_left aggr_step (zip uids successes) []).
  assert (Hnd : List.NoDup (map fst d))
    by (apply aggregate_NoDup; apply List.NoDup_nil).
  assert (Hkeys : In u (map fst d) <-> In u uids).
  { unfold d. rewrite aggregate_keys, map_fst_zip by exact Hl. simpl. tauto. }
  destruct (ema_fold_spec (ema self) d (_succ_fail_ema self) u Hnd)
    as [Hin Hout].
  split.
  - intros Hu. rewrite (Hin (proj2 Hkeys Hu)).
    unfold d. rewrite aggregate_spec. simpl. rewrite !Z.add_0_l. reflexivity.
  - intros Hu. apply Hout. tauto.
Qed.

(** The first loop reads an outcome only through the test [s > 0]. *)
Lemma aggr_step_coerce d u s : aggr_step d (u, coerce s) = aggr_step d (u, s).
Proof.
  unfold aggr_step, coerce. destruct (0 <? s); reflexivity.
Qed.

Lemma aggregate_coerce uids successes d :
  fold_left aggr_step (zip uids (map coerce successes)) d =
  fold_left aggr_step (zip uids successes) d.
Proof.
  revert successes d.
  induction uids as [|u uids IH]; intros [|s successes] d; try reflexivity.
  cbn [map zip zip_with fold_left]. rewrite aggr_step_coerce. apply IH.
Qed.


(** C7: for every call [update_batch(keys, outcomes)] with inputs of equal
    length the call returns, the decay and the priors are unchanged, and
    for each key that appears in the call with [a] successes and [b]
    failures (counted over all its trials of the call) the stored counters
    become [decay * successEma + (1 - decay) * a] and
    [decay * failureEma + (1 - decay) * b], where a key without counters
    starts from (0, 0); a key the call does not mention keeps its
    counters, or stays without. *)
Theorem C7_update_batch_grouped_ema
  (self : SuccessRateEstimator) (uids : list string) (successes : list Z) :
  length uids = length successes ->
  exists self',
    update_batch self uids successes = Ok self' /\
    ema self' = ema self /\ alpha self' = alpha self /\
    beta self' = beta self /\
    forall u,
      (In u uids ->
       _succ_fail_ema self' !! u =
       Some (let '(sa, sb) := default (0%Q, 0%Q) (_succ_fail_ema self !! u) in
             let a := n_success u (zip uids successes) in
             let b := n_failure u (zip uids successes) in
             ((ema self * sa + (1 - ema self) * inject_Z a)%Q,
              (ema self * sb + (1 - ema self) * inject_Z b)%Q))) /\
      (~ In u uids ->
       _succ_fail_ema self' !! u = _succ_fail_ema self !! u).
Proof. intros Hl. apply update_batch_spec. exact Hl. Qed.

Lemma C7_witness :
  exists self',
    update_batch (mkEstimator 0.5 1 1 ∅) ["a"; "b"; "a"]%string [1; 0; 1]
      = Ok self' /\
    ema self' = 0.5%Q /\ alpha self' = 1%Q /\ beta self' = 1%Q /\
    forall u,
      (In u ["a"; "b"; "a"]%string ->
       _succ_fail_ema self' !! u =
       Some (let '(sa, sb) :=
               default (0%Q, 0%Q) ((∅ : gmap string (Q * Q)) !! u) in
             let a := n_success u (zip ["a"; "b"; "a"]%string [1; 0; 1]) in
             let b := n_failure u (zip ["a"; "b"; "a"]%string [1; 0; 1]) in
             ((0.5 * sa + (1 - 0.5) * inject_Z a)%Q,
              (0.5 * sb + (1 - 0.5) * inject_Z b)%Q))) /\
      (~ In u ["a"; "b"; "a"]%string ->
       _succ_fail_ema self' !! u = (∅ : gmap string (Q * Q)) !! u).
Proof.
  apply (C7_update_batch_grouped_ema (mkEstimator 0.5 1 1 ∅)
           ["a"; "b"; "a"]%string [1; 0; 1]).
  reflexivity.
Defined.

(** C10: for every call [update_batch(keys, outcomes)] with inputs of
    equal length, outcomes outside {0, 1} are accepted: the call returns,
    and it returns the very estimator that the call returns on the coerced
    outcomes, where an outcome is coerced to 1 exactly when it is strictly
    greater than 0 and to 0 otherwise; the counters of a key of the call
    are updated with its number of outcomes above 0 as successes and its
    number of other outcomes as failures. *)
Theorem C10_outcomes_coerced_by_sign
  (self : SuccessRateEstimator) (uids : list string) (successes : list Z) :
  length uids = length successes ->
  exists self',
    update_batch self uids successes = Ok self' /\
    update_batch self uids (map coerce successes) = Ok self' /\
    (forall s, coerce s = 1 <-> 0 < s) /\
    (forall s, coerce s = 0 <-> s <= 0) /\
    forall u,
      In u uids ->
      _succ_fail_ema self' !! u =
      Some (ema_update (ema self) (_succ_fail_ema self !! u)
                       (n_success u (zip uids successes))
                       (n_failure u (zip uids successes))).
Proof.
  intros Hl.
  destruct (update_batch_spec self uids successes Hl)
    as (self' & E & _ & _ & _ & Hstore).
  exists self'. split; [exact E |]. split.
  - rewrite <- E. unfold update_batch.
    rewrite length_map, aggregate_coerce. reflexivity.
  - split; [| split].
    + intros s. unfold coerce. destruct (0 <? s) eqn:Es.
      * apply Z.ltb_lt in Es. tauto.
      * apply Z.ltb_ge in Es. split; [discriminate | lia].
    + intros s. unfold coerce. destruct (0 <? s) eqn:Es.
      * apply Z.ltb_lt in Es. split; [discriminate | lia].
      * apply Z.ltb_ge in Es. tauto.
    + intros u Hu. apply (Hstore u). exact Hu.
Qed.

Lemma C10_witness :
  exists self',
    update_batch (mkEstimator 0.5 1 1 ∅) ["a"; "a"]%string [2; -1]
      = Ok self' /\
    update_batch (mkEstimator 0.5 1 1 ∅) ["a"; "a"]%string
                 (map coerce [2; -1]) = Ok self' /\
    (forall s, coerce s = 1 <-> 0 < s) /\
    (forall s, coerce s = 0 <-> s <= 0) /\
    forall u,
      In u ["a"; "a"]%string ->
      _succ_fail_ema self' !! u =
      Some (ema_update 0.5 ((∅ : gmap string (Q * Q)) !! u)
                       (n_success u (zip ["a"; "a"]%string [2; -1]))
                       (n_failure u (zip ["a"; "a"]%string [2; -1]))).
Proof.
  apply (C10_outcomes_coerced_by_sign (mkEstimator 0.5 1 1 ∅)
           ["a"; "a"]%string [2; -1]).
  reflexivity.
Defined.

(** The outcomes 2 and -1 of one key count as one success and one
    failure. *)
Example update_batch_two_and_minus_one :
  n_success "a" (zip ["a"; "a"]%string [2; -1]) = 1 /\
  n_failure "a" (zip ["a"; "a"]%string [2; -1]) = 1 /\
  exists self',
    update_batch (mkEstimator 0.5 1 1 ∅) ["a"; "a"]%string [2; -1]
      = Ok self' /\
    _succ_fail_ema self' !! "a"%string =
    Some ((0.5 * 0 + (1 - 0.5) * inject_Z 1)%Q,
          (0.5 * 0 + (1 - 0.5) * inject_Z 1)%Q).
Proof.
  split; [reflexivity |]. split; [reflexivity |].
  eexists. split; [reflexivity |]. vm_compute. reflexivity.
Qed.




(** * Further properties of the code *)

(** ** The value model *)












(** ** The dynamic programme beyond the feasible budgets *)


Section BeyondReach.

Variables B n_low n_up D : Z.
Hypothesis HB : 0 <= B.
Hypothesis HD : 0 <= D.
Hypothesis HDeq : D = Z.min B (n_up - n_low).

(** In a state that no choice of excesses reaches, the recorded choice
    is 0. *)
Lemma unreachable_choice items prev vi b :
  row_inv B D items prev ->
  0 <= b <= B ->
  ~ reach D (S (length items)) b ->
  snd (dp_cell vi prev D b) = 0.
Proof.
  intros [_ Hrow] Hb Hnr.
  destruct (dp_cell_inv D HD vi prev b ltac:(lia)) as (Hr & Hv & _ & _).
  destruct Hv as [-> | [Hl _]]; [reflexivity |]. exfalso.
  set (k := snd (dp_cell vi prev D b)) in *.
  assert (Hk : 0 <= b - k <= B) by lia.
  destruct (Hrow (b - k) Hk) as [Hdead _].
  unfold live in Hl. apply Qle_bool_false in Hl.
  rewrite Hdead in Hl by (unfold reach in *; nia).
  pose proof NEG_INF_lt_CUT. lra.
Qed.

Lemma backtrack_unreachable vt b :
  Forall (nonneg_table D) vt ->
  0 <= b <= B ->
  ~ reach D (length vt) b ->
  backtrack (rev (snd (dp_fill vt B n_low n_up))) b =
  replicate (length vt) 0.
Proof.
  revert b. induction vt as [|vi vt IH] using rev_ind; intros b Hnn Hb Hnr.
  - reflexivity.
  - apply Forall_app in Hnn. destruct Hnn as [Hnn _].
    destruct (dp_fill_inv B n_low n_up D HB HD HDeq vt Hnn) as [Hinv _].
    rewrite dp_fill_snoc.
    destruct (dp_fill vt B n_low n_up) as [prev choice] eqn:Efill.
    cbn [fst snd] in *. rewrite (dp_step_eq B n_low n_up D HDeq).
    cbn [snd]. rewrite rev_app_distr. simpl rev. simpl app. cbn [backtrack].
    rewrite choice_dp_row by assumption.
    rewrite length_app in Hnr |- *. simpl length in *.
    replace (length vt + 1)%nat with (S (length vt)) in * by lia.
    rewrite (unreachable_choice vt prev vi b Hinv Hb Hnr).
    change (0 <? 0) with false. cbv iota. rewrite Z.sub_0_r.
    rewrite IH; [| exact Hnn | exact Hb | unfold reach in *; nia].
    change [0] with (replicate 1 0). rewrite <- replicate_add.
    f_equal. lia.
Qed.

End BeyondReach.

Lemma knapsack_dp_above_ceiling p T n_low n_up :
  n_low <= n_up ->
  Z.of_nat (length p) * n_up < T ->
  _knapsack_dp p T n_low n_up = Ok (replicate (length p) n_low).
Proof.
  intros Hn HT. unfold _knapsack_dp. rewrite zsum_replicate.
  set (M := length p) in *. set (B := T - Z.of_nat M * n_low).
  assert (HB : 0 <= B) by (unfold B; nia).
  assert ((B <? 0) = false) as -> by (apply Z.ltb_ge; exact HB).
  set (D := Z.min B (n_up - n_low)).
  assert (HD : 0 <= D) by (unfold D; lia).
  set (vt := map (fun pi => _value_table pi n_low n_up) p).
  assert (Hnn : Forall (nonneg_table D) vt).
  { apply nonneg_value_tables. unfold D. lia. }
  assert (Hlen : length vt = M) by (unfold vt; apply length_map).
  assert (Hnr : ~ reach D (length vt) B).
  { rewrite Hlen. unfold reach, D, B. nia. }
  pose proof (backtrack_unreachable B n_low n_up D HB HD eq_refl vt B
                Hnn ltac:(lia) Hnr) as Hbt.
  destruct (dp_fill vt B n_low n_up) as [row choice]. cbn [snd] in Hbt.
  rewrite Hbt, Hlen. f_equal.
  rewrite <- (length_replicate M 0) at 1. rewrite zip_add_replicate.
  rewrite map_replicate. f_equal. lia.
Qed.

(** X5: with a budget above the ceiling [M * n_up] the dynamic programme
    spends nothing beyond the baseline: every key gets exactly [n_low]. *)
Theorem X5_dp_above_ceiling_returns_baseline
  (p : list Q) (total_budget n_low n_up : Z) :
  n_low <= n_up ->
  Z.of_nat (length p) * n_up < total_budget ->
  _knapsack_dp p total_budget n_low n_up = Ok (replicate (length p) n_low).
Proof. apply knapsack_dp_above_ceiling. Qed.

Lemma X5_witness :
  _knapsack_dp [0.5%Q; 0.2%Q] 9 1 4 = Ok (replicate 2 1).
Proof.
  apply (X5_dp_above_ceiling_returns_baseline [0.5%Q; 0.2%Q] 9 1 4).
  - lia.
  - simpl. lia.
Defined.

(** X6: with a budget of at least the baseline [M * n_low] the dynamic
    programme returns [M] counts within [[n_low, n_up]], and they sum to
    the budget exactly when the budget is at most [M * n_up]. *)
Theorem X6_dp_sum_exact_iff_feasible
  (p : list Q) (total_budget n_low n_up : Z) :
  n_low <= n_up ->
  Z.of_nat (length p) * n_low <= total_budget ->
  exists Ns,
    _knapsack_dp p total_budget n_low n_up = Ok Ns /\
    length Ns = length p /\
    Forall (fun n => n_low <= n <= n_up) Ns /\
    (zsum Ns = total_budget <-> total_budget <= Z.of_nat (length p) * n_up).
Proof.
  intros Hn HT.
  destruct (Z_le_gt_dec total_budget (Z.of_nat (length p) * n_up))
    as [Hfit | Hover].
  - destruct (knapsack_dp_optimal p total_budget n_low n_up Hn
                ltac:(lia)) as (Ns & E & (Hl & Hb & Hs) & _).
    exists Ns. split; [exact E |]. split; [exact Hl |].
    split; [exact Hb |]. tauto.
  - rewrite knapsack_dp_above_ceiling by lia.
    eexists. split; [reflexivity |].
    split; [apply length_replicate |].
    split; [apply Forall_replicate; lia |].
    rewrite zsum_replicate. nia.
Qed.

Lemma X6_witness :
  exists Ns,
    _knapsack_dp [0.5%Q; 0.2%Q] 9 1 4 = Ok Ns /\
    length Ns = 2%nat /\
    Forall (fun n => 1 <= n <= 4) Ns /\
    (zsum Ns = 9 <-> 9 <= 2 * 4).
Proof.
  apply (X6_dp_sum_exact_iff_feasible [0.5%Q; 0.2%Q] 9 1 4).
  - lia.
  - simpl. lia.
Defined.

(** X7: with a budget below the baseline [M * n_low] the dynamic programme
    is skipped: a non-empty vector gets [max(0, floor(total_budget / M))]
    for every key, which is below [n_low] and sums to at most the budget
    when the budget is not negative; an empty vector raises
    [ZeroDivisionError]. *)
Theorem X7_dp_below_baseline
  (p : list Q) (total_budget n_low n_up : Z) :
  total_budget < Z.of_nat (length p) * n_low ->
  (p = [] ->
   _knapsack_dp p total_budget n_low n_up = Raise ZeroDivisionError) /\
  (p <> [] ->
   let take := Z.max 0 (total_budget / Z.of_nat (length p)) in
   _knapsack_dp p total_budget n_low n_up = Ok (replicate (length p) take) /\
   (0 < n_low -> take < n_low) /\
   (0 <= total_budget -> zsum (replicate (length p) take) <= total_budget)).
Proof.
  intros HT. split.
  - intros ->. simpl in HT. unfold _knapsack_dp. simpl.
    assert ((total_budget - 0 <? 0) = true) as -> by (apply Z.ltb_lt; lia).
    reflexivity.
  - intros Hp take. split; [apply knapsack_dp_low; assumption |].
    assert (HM : 0 < Z.of_nat (length p)).
    { destruct p; [congruence | simpl; lia]. }
    split.
    + intros Hn. unfold take.
      assert (total_budget / Z.of_nat (length p) < n_low)
        by (apply Z.div_lt_upper_bound; lia).
      lia.
    + intros H0. rewrite zsum_replicate. unfold take.
      pose proof (Z.mul_div_le total_budget _ HM).
      pose proof (Z.div_pos total_budget _ H0 HM). lia.
Qed.

Lemma X7_witness :
  ([0.5%Q; 0.5%Q] = [] ->
   _knapsack_dp [0.5%Q; 0.5%Q] 3 2 4 = Raise ZeroDivisionError) /\
  ([0.5%Q; 0.5%Q] <> [] ->
   let take := Z.max 0 (3 / 2) in
   _knapsack_dp [0.5%Q; 0.5%Q] 3 2 4 = Ok (replicate 2 take) /\
   (0 < 2 -> take < 2) /\
   (0 <= 3 -> zsum (replicate 2 take) <= 3)).
Proof.
  apply (X7_dp_below_baseline [0.5%Q; 0.5%Q] 3 2 4). simpl. lia.
Defined.

(** ** Ties *)


Section Ties.

Variables B n_low n_up D : Z.
Hypothesis HB : 0 <= B.
Hypothesis HD : 0 <= D.
Hypothesis HDeq : D = Z.min B (n_up - n_low).



End Ties.




(** Two keys with the same probability and one unit to spare: the unit goes
    to the first key. *)
Example dp_tie_two_equal_keys :
  _knapsack_dp [0.5%Q; 0.5%Q] 5 2 4 = Ok [3; 2].
Proof. vm_compute. reflexivity. Qed.

(** ** [allocate_with_extremes] on every input *)






(** ** The sum on a feasible budget, whatever the probabilities *)













(** ** The estimator over its lifetime *)

















(** ** One call *)

Lemma n_success_perm u obs obs' :
  Permutation obs obs' -> n_success u obs = n_success u obs'.
Proof.
  induction 1 as [| [k s] l l' _ IH | [k s] [k' s'] l | l l' l'' _ IH1 _ IH2].
  - reflexivity.
  - rewrite !n_success_cons, IH. reflexivity.
  - rewrite !n_success_cons. lia.
  - congruence.
Qed.

Lemma n_failure_perm u obs obs' :
  Permutation obs obs' -> n_failure u obs = n_failure u obs'.
Proof.
  induction 1 as [| [k s] l l' _ IH | [k s] [k' s'] l | l l' l'' _ IH1 _ IH2].
  - reflexivity.
  - rewrite !n_failure_cons, IH. reflexivity.
  - rewrite !n_failure_cons. lia.
  - congruence.
Qed.

Lemma zip_map_fst_snd {A B} (l : list (A * B)) :
  zip (map fst l) (map snd l) = l.
Proof.
  induction l as [|[x y] l IH]; [reflexivity |].
  cbn [map fst snd zip_with]. rewrite IH. reflexivity.
Qed.

Lemma update_batch_order self obs obs' :
  Permutation obs obs' ->
  exists self',
    update_batch self (map fst obs) (map snd obs) = Ok self' /\
    update_batch self (map fst obs') (map snd obs') = Ok self'.
Proof.
  intros Hperm.
  destruct (update_batch_spec self (map fst obs) (map snd obs)
              ltac:(rewrite !length_map; reflexivity))
    as (s1 & E1 & He1 & Ha1 & Hb1 & Hst1).
  destruct (update_batch_spec self (map fst obs') (map snd obs')
              ltac:(rewrite !length_map; reflexivity))
    as (s2 & E2 & He2 & Ha2 & Hb2 & Hst2).
  exists s1. split; [exact E1 |]. rewrite E2. f_equal.
  destruct s1 as [e1 a1 b1 m1], s2 as [e2 a2 b2 m2]. cbn in *.
  subst e1 a1 b1 e2 a2 b2. f_equal.
  apply map_eq. intros u.
  rewrite !zip_map_fst_snd in *.
  destruct (in_dec String.string_dec u (map fst obs)) as [Hin | Hout].
  - assert (Hin' : In u (map fst obs')).
    { eapply Permutation_in; [| exact Hin].
      apply Permutation_map. exact Hperm. }
    rewrite (proj1 (Hst1 u) Hin), (proj1 (Hst2 u) Hin').
    rewrite (n_success_perm u obs obs' Hperm),
            (n_failure_perm u obs obs' Hperm).
    reflexivity.
  - assert (Hout' : ~ In u (map fst obs')).
    { intros Hin'. apply Hout. eapply Permutation_in; [| exact Hin'].
      apply Permutation_map. apply Permutation_sym. exact Hperm. }
    rewrite (proj2 (Hst1 u) Hout), (proj2 (Hst2 u) Hout'). reflexivity.
Qed.

(** X13: the order of the trials within one call does not matter: two calls
    of [update_batch] whose (key, outcome) pairs are a permutation of each
    other both return, and return the same estimator. *)
Theorem X13_update_batch_ignores_trial_order
  (self : SuccessRateEstimator) (obs obs' : list (string * Z)) :
  Permutation obs obs' ->
  exists self',
    update_batch self (map fst obs) (map snd obs) = Ok self' /\
    update_batch self (map fst obs') (map snd obs') = Ok self'.
Proof. apply update_batch_order. Qed.

Lemma X13_witness :
  exists self',
    update_batch (mkEstimator 0.5 1 1 ∅)
                 (map fst [("a"%string, 1); ("b"%string, 0)])
                 (map snd [("a"%string, 1); ("b"%string, 0)]) = Ok self' /\
    update_batch (mkEstimator 0.5 1 1 ∅)
                 (map fst [("b"%string, 0); ("a"%string, 1)])
                 (map snd [("b"%string, 0); ("a"%string, 1)]) = Ok self'.
Proof.
  apply (X13_update_batch_ignores_trial_order (mkEstimator 0.5 1 1 ∅)
           [("a"%string, 1); ("b"%string, 0)]
           [("b"%string, 0); ("a"%string, 1)]).
  apply perm_swap.
Defined.

(** X14: [update_batch] never forgets a key: after a call with inputs of
    equal length the keys with stored counters are exactly the keys that
    had counters before together with the keys of the call. *)
Theorem X14_update_batch_keys_only_grow
  (self : SuccessRateEstimator) (uids : list string) (successes : list Z) :
  length uids = length successes ->
  exists self',
    update_batch self uids successes = Ok self' /\
    forall u,
      is_Some (_succ_fail_ema self' !! u) <->
      is_Some (_succ_fail_ema self !! u) \/ In u uids.
Proof.
  intros Hl.
  destruct (update_batch_spec self uids successes Hl)
    as (s1 & E1 & _ & _ & _ & Hstore).
  exists s1. split; [exact E1 |]. intros u.
  destruct (in_dec String.string_dec u uids) as [Hin | Hout].
  - rewrite (proj1 (Hstore u) Hin). split; [intros _; right; exact Hin |].
    intros _. eexists. reflexivity.
  - rewrite (proj2 (Hstore u) Hout). tauto.
Qed.

Lemma X14_witness :
  exists self',
    update_batch (mkEstimator 0.5 1 1 ∅) ["a"; "b"]%string [1; 0]
      = Ok self' /\
    forall u,
      is_Some (_succ_fail_ema self' !! u) <->
      is_Some ((∅ : gmap string (Q * Q)) !! u) \/ In u ["a"; "b"]%string.
Proof.
  apply (X14_update_batch_keys_only_grow (mkEstimator 0.5 1 1 ∅)
           ["a"; "b"]%string [1; 0]).
  reflexivity.
Defined.

(** ** The same call again and again *)




(** ** The trainer's index list *)

Import Trainer.


















(** ** The objective of the repository's test *)

Import Tests.

Lemma lookup_value_table p n_low n_up n :
  n_low <= n <= n_up ->
  py_index (_value_table p n_low n_up) (n - n_low) = Some (value p n).
Proof.
  intros Hn. unfold py_index.
  assert ((0 <=? n - n_low) = true) as -> by (apply Z.leb_le; lia).
  unfold _value_table, range.
  change (map (fun k => value p k) (seqZ n_low (n_up + 1 - n_low)))
    with ((fun k => value p k) <$> seqZ n_low (n_up + 1 - n_low)).
  rewrite list_lookup_fmap, lookup_seqZ_lt by lia.
  simpl. f_equal. f_equal. lia.
Qed.

Lemma total_value_fold p Ns n_low n_up :
  length Ns = length p ->
  Forall (fun n => n_low <= n <= n_up) Ns ->
  forall k s acc,
    (s + k = length p)%nat ->
    exists v,
      fold_left (total_value_step p Ns n_low n_up) (seq s k) (Some acc)
        = Some v /\
      (v == acc + total_value (drop s p) (drop s Ns))%Q.
Proof.
  intros Hl Hb. induction k as [|k IH]; intros s acc Hs.
  - exists acc. split; [reflexivity |].
    rewrite (drop_ge p s) by lia. simpl. lra.
  - cbn [seq fold_left].
    destruct (lookup_lt_is_Some_2 p s ltac:(lia)) as [pi Hpi].
    destruct (lookup_lt_is_Some_2 Ns s ltac:(lia)) as [n Hn].
    assert (Hnb : n_low <= n <= n_up).
    { rewrite Forall_forall in Hb. apply Hb.
      eapply list_elem_of_lookup_2. exact Hn. }
    assert (Hstep : total_value_step p Ns n_low n_up (Some acc) s =
                    Some (acc + value pi n)%Q).
    { unfold total_value_step. rewrite Hpi. unfold py_index at 1.
      assert ((0 <=? Z.of_nat s) = true) as -> by (apply Z.leb_le; lia).
      rewrite Nat2Z.id, Hn.
      rewrite (lookup_value_table pi n_low n_up n Hnb). reflexivity. }
    rewrite Hstep.
    destruct (IH (S s) (acc + value pi n)%Q ltac:(lia)) as (v & E & Hv).
    exists v. split; [exact E |].
    rewrite (drop_S p pi s Hpi), (drop_S Ns n s Hn). simpl. lra.
Qed.

(** X19: on an allocation with one count per key, each within
    [[n_low, n_up]], the test's [_total_value] raises nothing and returns
    the objective [sum_i value(p_i, N_i)]. *)
Theorem X19_test_total_value_is_objective
  (p : list Q) (Ns : list Z) (n_low n_up : Z) :
  length Ns = length p ->
  Forall (fun n => n_low <= n <= n_up) Ns ->
  exists v,
    _total_value p Ns n_low n_up = Some v /\
    (v == total_value p Ns)%Q.
Proof.
  intros Hl Hb.
  destruct (total_value_fold p Ns n_low n_up Hl Hb (length p) 0%nat 0%Q
              ltac:(lia)) as (v & E & Hv).
  exists v. split; [exact E |]. rewrite !drop_0 in Hv. lra.
Qed.

Lemma X19_witness :
  exists v,
    _total_value [0.2%Q; 0.5%Q] [3; 2] 2 4 = Some v /\
    (v == total_value [0.2%Q; 0.5%Q] [3; 2]%Z)%Q.
Proof.
  apply (X19_test_total_value_is_objective [0.2%Q; 0.5%Q] [3; 2] 2 4).
  - reflexivity.
  - repeat constructor; lia.
Defined.

(** A count one below [n_low] is not rejected: the index -1 reads the last
    entry of the value table, the value of [n_up]. *)
Example total_value_wraps_below_n_low :
  _total_value [0.5%Q] [1] 2 4 = Some (0 + value 0.5 4)%Q.
Proof. vm_compute. reflexivity. Qed.

(** ** Above the ceiling, and mid keys only *)









(** ** Calls on different keys *)

Lemma update_batch_commute self uids1 s1 uids2 s2 :
  length uids1 = length s1 ->
  length uids2 = length s2 ->
  (forall u, In u uids1 -> ~ In u uids2) ->
  exists self',
    update_batches self [(uids1, s1); (uids2, s2)] = Ok self' /\
    update_batches self [(uids2, s2); (uids1, s1)] = Ok self'.
Proof.
  intros Hl1 Hl2 Hdis.
  destruct (update_batch_spec self uids1 s1 Hl1)
    as (a & Ea & Hea & Haa & Hba & Hsa).
  destruct (update_batch_spec a uids2 s2 Hl2)
    as (ab & Eab & Heab & Haab & Hbab & Hsab).
  destruct (update_batch_spec self uids2 s2 Hl2)
    as (b & Eb & Heb & Hab & Hbb & Hsb).
  destruct (update_batch_spec b uids1 s1 Hl1)
    as (ba & Eba & Heba & Haba & Hbba & Hsba).
  cbn [update_batches]. rewrite Ea, Eb. cbn [bind]. rewrite Eab, Eba.
  cbn [bind]. exists ab. split; [reflexivity |]. f_equal.
  destruct ab as [e1 a1 b1 m1], ba as [e2 a2 b2 m2]. cbn in *.
  assert (e2 = e1) as -> by congruence.
  assert (a2 = a1) as -> by congruence.
  assert (b2 = b1) as -> by congruence.
  f_equal. apply map_eq. intros u.
  destruct (in_dec String.string_dec u uids1) as [H1 | H1];
    destruct (in_dec String.string_dec u uids2) as [H2 | H2].
  - exfalso. exact (Hdis u H1 H2).
  - rewrite (proj2 (Hsab u) H2), (proj1 (Hsa u) H1).
    rewrite (proj1 (Hsba u) H1), (proj2 (Hsb u) H2).
    rewrite Heb. reflexivity.
  - rewrite (proj1 (Hsab u) H2), (proj2 (Hsa u) H1).
    rewrite (proj2 (Hsba u) H1), (proj1 (Hsb u) H2).
    rewrite Hea. reflexivity.
  - rewrite (proj2 (Hsab u) H2), (proj2 (Hsa u) H1).
    rewrite (proj2 (Hsba u) H1), (proj2 (Hsb u) H2). reflexivity.
Qed.

(** X22: two [update_batch] calls that share no key commute: made in
    either order they both return, and leave the same estimator. *)
Theorem X22_update_batch_disjoint_calls_commute
  (self : SuccessRateEstimator) (uids1 : list string) (s1 : list Z)
  (uids2 : list string) (s2 : list Z) :
  length uids1 = length s1 ->
  length uids2 = length s2 ->
  (forall u, In u uids1 -> ~ In u uids2) ->
  exists self',
    update_batches self [(uids1, s1); (uids2, s2)] = Ok self' /\
    update_batches self [(uids2, s2); (uids1, s1)] = Ok self'.
Proof. apply update_batch_commute. Qed.

Lemma X22_witness :
  exists self',
    update_batches (mkEstimator 0.5 1 1 ∅)
      [(["a"]%string, [1]); (["b"]%string, [0])] = Ok self' /\
    update_batches (mkEstimator 0.5 1 1 ∅)
      [(["b"]%string, [0]); (["a"]%string, [1])] = Ok self'.
Proof.
  apply (X22_update_batch_disjoint_calls_commute (mkEstimator 0.5 1 1 ∅)
           ["a"]%string [1] ["b"]%string [0]).
  - reflexivity.
  - reflexivity.
  - intros u [<- | []] [H | []]. discriminate.
Defined.
